(** * Compound options of wf-config

    A shallow embedding of [include/wayfire/config/compound-option.hpp]:
    the tuple helpers [pop_first] and [push_first], the column descriptors
    ([compound_option_entry_t]), and the compound option object with its
    typed accessors ([get_value], [set_value] and their [_simple] variants,
    built on the template recursions [build_recursive] and [push_recursive]).

    Conventions of the embedding.
    - A C++ type usable as a column is an [option_type]: a carrier with the
      two specialisations [option_type::from_string<T>] and
      [option_type::to_string<T>] of [wayfire/config/types.hpp].
    - A template parameter pack [Args...] is a [list option_type]; a
      [std::tuple<Ts...>] is a right-nested product ending in [unit].
    - A member function that may abort returns a [result]; a member function
      that mutates the option takes the object and returns the new object. *)

From Stdlib Require Import ZArith Ascii.
From stdpp Require Import base tactics option list strings pretty.

Set Default Proof Using "Type".
Local Open Scope string_scope.
Local Open Scope list_scope.

(** ** Outcomes of a call *)

(** The ways a call of the header can leave normal control flow:
    [assert] aborting, [std::optional::value()] throwing on an empty
    optional, and [std::vector::operator[]] applied past the end (undefined
    behaviour, kept apart from the two loud failures). *)
Inductive failure : Type :=
  | assertion_failed
  | bad_optional_access
  | out_of_range.

Inductive result (A : Type) : Type :=
  | Ok (a : A)
  | Fatal (f : failure).
Arguments Ok {A} a.
Arguments Fatal {A} f.

Global Instance result_ret : MRet result := @Ok.
Global Instance result_bind : MBind result := λ A B k m,
  match m with
  | Ok a => k a
  | Fatal f => Fatal f
  end.
Global Instance result_fmap : FMap result := λ A B g m,
  match m with
  | Ok a => Ok (g a)
  | Fatal f => Fatal f
  end.

(** ** Tuples *)

(** [std::tuple<Ts...>]. *)
Fixpoint tuple (Ts : list Type) : Type :=
  match Ts with
  | [] => unit
  | T :: Ts' => (T * tuple Ts')%type
  end.

(** [pop_first]: [std::apply] binds the first component to an ignored
    parameter and ties the remaining ones. *)
Definition pop_first {T1 : Type} {Ts : list Type}
    (tup : tuple (T1 :: Ts)) : tuple Ts :=
  let '(_, args) := tup in args.

(** [push_first]: [std::tuple_cat(std::tie(t), tuple)]. *)
Definition push_first {T1 : Type} {Ts : list Type}
    (t : T1) (tup : tuple Ts) : tuple (T1 :: Ts) :=
  (t, tup).

(** [std::get<0>]. *)
Definition get_first {T1 : Type} {Ts : list Type}
    (tup : tuple (T1 :: Ts)) : T1 :=
  let '(t, _) := tup in t.

(** ** Column types *)

(** What the header needs of a type [Type]: the specialisations
    [option_type::from_string<Type>] (returning [std::optional<Type>]) and
    [option_type::to_string<Type>].  Their bodies live outside the header,
    so they are the fields of the record. *)
Record option_type : Type := OptionType {
  carrier : Type;
  from_string : string → option carrier;
  to_string : carrier → string;
}.

(** Modelled from the spec: the specialisations of [from_string] and
    [to_string] for [std::string] (declared in wayfire/config/types.hpp, no
    body in the header).  The spec treats a string cell as free text that is
    accepted unconditionally, stored and handed back verbatim. *)
Definition string_type : option_type :=
  {| carrier := string;
     from_string := λ s, Some s;
     to_string := λ s, s |}.

(** The components of a tuple over the pack [Args...]. *)
Abbreviation typed_tuple Args := (tuple (carrier <$> Args)).

(** [compound_list_t<Args...>] and [simple_list_t<Args...>]. *)
Abbreviation compound_list_t Args := (list (typed_tuple (string_type :: Args))).
Abbreviation simple_list_t Args := (list (typed_tuple Args)).

(** A type whose text form loses nothing: parsing what [to_string] printed
    gives the value back. *)
Definition round_trips (T : option_type) : Prop :=
  ∀ v : carrier T, from_string T (to_string T v) = Some v.

(** ** Column descriptors *)

(** [compound_option_entry_t<Type>]: the two strings of the base class and
    the type the entry was instantiated with. *)
Record compound_option_entry_t : Type := Entry {
  entry_type : option_type;
  prefix : string;
  name : string;
}.

Definition get_prefix (e : compound_option_entry_t) : string := prefix e.
Definition get_name (e : compound_option_entry_t) : string := name e.

(** [is_parsable]: [from_string<Type>(str).has_value()]. *)
Definition is_parsable (e : compound_option_entry_t) (str : string) : bool :=
  match from_string (entry_type e) str with
  | Some _ => true
  | None => false
  end.

(** [clone]: a new entry of the same [Type] from [get_prefix()] and
    [get_name()]. *)
Definition clone (e : compound_option_entry_t) : compound_option_entry_t :=
  {| entry_type := entry_type e; prefix := get_prefix e; name := get_name e |}.

(** ** The compound option object *)

(** [stored_type_t]: rows of cells; cell 0 of a row is the name of the
    tuple. *)
Abbreviation stored_type_t := (list (list string)).

(** The members [value], [entries] and [list_type_hint] of
    [compound_option_t], and what the object inherits from [option_base_t]
    as far as the header relies on it.

    Modelled from the spec: [option_base_t] (wayfire/config/option.hpp) is
    not part of the header.  Of it the object keeps the option's name, a
    separately tracked default grid, and the number of change notifications
    sent so far, which is all an observer can tell about [notify_updated]. *)
Record compound_option_t : Type := CompoundOption {
  option_name : string;
  value : stored_type_t;
  entries : list compound_option_entry_t;
  list_type_hint : string;
  default_value : stored_type_t;
  notifications : nat;
}.

(** Assignment to the member [value]. *)
Definition assign_value (v : stored_type_t) (o : compound_option_t)
    : compound_option_t :=
  {| option_name := option_name o;
     value := v;
     entries := entries o;
     list_type_hint := list_type_hint o;
     default_value := default_value o;
     notifications := notifications o |}.

(** Modelled from the spec: [option_base_t::notify_updated] (absent from
    the header) sends a single notification to the registered observers. *)
Definition notify_updated (o : compound_option_t) : compound_option_t :=
  {| option_name := option_name o;
     value := value o;
     entries := entries o;
     list_type_hint := list_type_hint o;
     default_value := default_value o;
     notifications := S (notifications o) |}.

Definition get_type_hint (o : compound_option_t) : string := list_type_hint o.

(** *** Primitive steps of the two template recursions *)

(** [v[i]] on a [std::vector]. *)
Definition vector_at {A} (v : list A) (i : nat) : result A :=
  match v !! i with
  | Some x => Ok x
  | None => Fatal out_of_range
  end.

(** [std::optional::value()]. *)
Definition optional_value {A} (o : option A) : result A :=
  match o with
  | Some x => Ok x
  | None => Fatal bad_optional_access
  end.

(** [mapM] for [result], left to right: the first failing element decides. *)
Fixpoint for_each {A B} (body : A → result B) (l : list A) : result (list B) :=
  match l with
  | [] => Ok []
  | x :: l' => y ← body x; ys ← for_each body l'; Ok (y :: ys)
  end.

(** The [for] loop of [build_recursive<n>]: for every row [i], in order,
    [from_string<type_t>(this->value[i][n]).value()]. *)
Definition build_column (T : option_type) (n : nat) (value : stored_type_t)
    : result (list (carrier T)) :=
  for_each (λ row, cell ← vector_at row n; optional_value (from_string T cell))
           value.

(** [build_recursive<n, Args...>].  [Ts] is the part of
    [std::tuple<std::string, Args...>] from component [n] on.  The loop
    fills component [n] of every result tuple, then the [if constexpr]
    recursion fills the components after it; past the last component
    nothing is left to fill.  The result vector was resized to
    [value.size()], so it has one tuple per row. *)
Fixpoint build_recursive (n : nat) (Ts : list option_type)
    (value : stored_type_t) : result (list (typed_tuple Ts)) :=
  match Ts return result (list (typed_tuple Ts)) with
  | [] => Ok ((λ _, tt) <$> value)
  | T :: Ts' =>
      column ← build_column T n value;
      rest ← build_recursive (S n) Ts' value;
      Ok (zip_with push_first column rest)
  end.

(** The [for] loop of [push_recursive<n>]: [this->value[i].push_back(cell)]
    for every [i < new_value.size()]; [column] holds the cells
    [to_string<type_t>(std::get<n>(new_value[i]))]. *)
Fixpoint push_back_column (column : list string) (value : stored_type_t)
    : result stored_type_t :=
  match column, value with
  | [], _ => Ok value
  | _ :: _, [] => Fatal out_of_range
  | cell :: column', row :: value' =>
      rest ← push_back_column column' value';
      Ok ((row ++ [cell]) :: rest)
  end.

(** [push_recursive<n>]: [Ts] is the part of the tuple type from component
    [n] on, and [new_value] the tuples with the components before [n]
    already consumed. *)
Fixpoint push_recursive (Ts : list option_type)
    : list (typed_tuple Ts) → stored_type_t → result stored_type_t :=
  match Ts return list (typed_tuple Ts) → stored_type_t → result stored_type_t
  with
  | [] => λ _ value, Ok value
  | T :: Ts' => λ new_value value,
      value' ← push_back_column
                 ((λ tup, to_string T (get_first tup)) <$> new_value) value;
      push_recursive Ts' (pop_first <$> new_value) value'
  end.

(** *** Typed accessors *)

(** [get_value<Args...>]. *)
Definition get_value (Args : list option_type) (o : compound_option_t)
    : result (compound_list_t Args) :=
  build_recursive 0 (string_type :: Args) (value o).

(** [get_value_simple<Args...>]. *)
Definition get_value_simple (Args : list option_type) (o : compound_option_t)
    : result (simple_list_t Args) :=
  get_value Args o ≫= λ named : compound_list_t Args,
  Ok (pop_first <$> named).

(** [set_value<Args...>]: the [assert] on the arity (taken as compiled in,
    that is without [NDEBUG]), [value.assign] with one empty row per tuple,
    the recursion, the notification. *)
Definition set_value (Args : list option_type)
    (new_value : compound_list_t Args) (o : compound_option_t)
    : result compound_option_t :=
  if bool_decide (length Args = length (entries o)) then
    value' ← push_recursive (string_type :: Args) new_value
                (replicate (length new_value) []);
    Ok (notify_updated (assign_value value' o))
  else Fatal assertion_failed.

(** [(int)value.size()]: the conversion of a [size_t] to the 32-bit [int]
    keeps the low 32 bits, read in two's complement. *)
Definition to_int (z : Z) : Z :=
  ((z + 2147483648) `mod` 4294967296 - 2147483648)%Z.

(** [std::to_string(int)]. *)
Definition std_to_string (i : Z) : string := pretty i.

(** The loop of [set_value_simple]: with the [int] counter at [i] and the
    tuples [value[i]], [value[i + 1]], ... still ahead, it appends
    [push_first(std::to_string(i), value[i])] and steps to [i + 1] as long as
    [i < bound].  The bound [(int)value.size()] never exceeds the size, so
    the loop stops no later than at the end of the vector. *)
Fixpoint name_by_index {Ts : list Type} (i bound : Z) (value : list (tuple Ts))
    : list (tuple ((string : Type) :: Ts)) :=
  match value with
  | [] => []
  | tup :: value' =>
      if (i <? bound)%Z
      then push_first (std_to_string i) tup :: name_by_index (i + 1) bound value'
      else []
  end.

(** [set_value_simple<Args...>]: the loop from [i = 0] with the bound
    [(int)value.size()], then [set_value] on the list it built. *)
Definition set_value_simple (Args : list option_type)
    (value : simple_list_t Args) (o : compound_option_t)
    : result compound_option_t :=
  let named : compound_list_t Args :=
    name_by_index 0 (to_int (Z.of_nat (length value))) value in
  set_value Args named o.

(** *** Untyped accessors and the inherited contract *)

(** Modelled from the spec: the constructor is declared in the header and
    defined elsewhere.  It records the name, the schema and the type hint
    (["tuple"] when the caller passes none); the value starts empty, and so
    do the tracked default and the notification count. *)
Definition make_compound_option (name : string)
    (entries : list compound_option_entry_t) (type_hint : string)
    : compound_option_t :=
  {| option_name := name;
     value := [];
     entries := entries;
     list_type_hint := type_hint;
     default_value := [];
     notifications := 0 |}.

(** Modelled from the spec: [get_entries] and [get_value_untyped] are
    declared in the header and defined elsewhere; they return the schema
    and the full current row grid. *)
Definition get_entries (o : compound_option_t)
    : list compound_option_entry_t :=
  entries o.
Definition get_value_untyped (o : compound_option_t) : stored_type_t :=
  value o.

(** Modelled from the spec: the check [set_value_untyped] applies to one
    cell.  The cell at column index [c] must satisfy
    [entries[c-1].validate(cell)]; the identifier cell at index 0 is accepted
    unconditionally; a cell with no corresponding descriptor has nothing to
    validate it. *)
Definition cell_validates (es : list compound_option_entry_t)
    (c : nat) (cell : string) : bool :=
  match c with
  | 0 => true
  | S k =>
      match es !! k with
      | Some e => is_parsable e cell
      | None => false
      end
  end.

(** Modelled from the spec: a row validates when it is a row of the data
    model, an identifier followed by one cell per schema column, and each of
    its cells validates. *)
Definition row_validates (es : list compound_option_entry_t)
    (row : list string) : bool :=
  bool_decide (length row = S (length es))
  && forallb id (imap (cell_validates es) row).

(** Modelled from the spec: [set_value_untyped] is declared in the header
    and defined elsewhere.  Only if all rows and cells validate it replaces
    the value wholesale, fires the change notification and reports success;
    otherwise the call is a no-op and reports failure. *)
Definition set_value_untyped (grid : stored_type_t) (o : compound_option_t)
    : bool * compound_option_t :=
  if forallb (row_validates (entries o)) grid
  then (true, notify_updated (assign_value grid o))
  else (false, o).

(** Modelled from the spec: [reset_to_default] is declared in the header and
    defined elsewhere.  It puts the separately tracked default in place of
    the value, a mutation of the value that is notified once. *)
Definition reset_to_default (o : compound_option_t) : compound_option_t :=
  notify_updated (assign_value (default_value o) o).

(** ** Column types used in the examples *)

Module Examples.

(** A type read the way [operator>>] reads a [std::string]: the parser
    keeps the text up to the first blank, the printer writes the value as it
    is. *)
Fixpoint first_word (s : string) : string :=
  match s with
  | EmptyString => EmptyString
  | String a s' => if Ascii.eqb a " "%char then EmptyString
      else String a (first_word s')
  end.
Definition word_type : option_type :=
  {| carrier := string;
     from_string := λ s, Some (first_word s);
     to_string := λ s, s |}.

(** A boolean written ["1"] or ["0"] and read from those two texts only. *)
Definition flag_type : option_type :=
  {| carrier := bool;
     from_string := λ s,
       if String.eqb s "1" then Some true
       else if String.eqb s "0" then Some false
       else None;
     to_string := λ b : bool, if b then "1" else "0" |}.

(** The schema of a list of commands: a flag and a free text. *)
Definition command_entries : list compound_option_entry_t :=
  [ {| entry_type := flag_type; prefix := "enabled_"; name := "enabled" |};
    {| entry_type := string_type; prefix := "cmd_"; name := "command" |} ].

Definition commands : compound_option_t :=
  make_compound_option "commands" command_entries "tuple".

Definition two_rows : stored_type_t :=
  [ ["binding1"; "1"; "run-app"]; ["binding2"; "0"; "toggle"] ].

(** The option after the parser handed it [two_rows]. *)
Definition commands_loaded : compound_option_t :=
  (set_value_untyped two_rows commands).2.

(** A grid whose second row has a flag cell that is no flag. *)
Definition bad_rows : stored_type_t :=
  [ ["binding1"; "1"; "run-app"]; ["b"; "not-a-flag"; "x"] ].

(** A grid whose only row stops after the flag cell: the cell of the
    command column is missing. *)
Definition short_rows : stored_type_t :=
  [ ["binding1"; "1"] ].

(** The typed view of [two_rows]. *)
Definition two_tuples : compound_list_t [flag_type; string_type] :=
  [ ("binding1", (true, ("run-app", ()))); ("binding2", (false, ("toggle", ()))) ].

(** Tuples whose first column is a [word_type] holding two words. *)
Definition two_word_tuples : compound_list_t [word_type; string_type] :=
  [ ("binding1", ("toggle now", ("x", ()))) ].

(** A list option without columns, and [INT_MAX + 1] empty tuples for it. *)
Definition plain_list : compound_option_t :=
  make_compound_option "list" [] "plain".
Definition int_overflow_rows : simple_list_t [] :=
  replicate (Z.to_nat 2147483648) ().

(** The rows of [two_rows] with a further cell behind the last column. *)
Definition wide_rows : stored_type_t :=
  [ ["binding1"; "1"; "run-app"; "extra"]; ["binding2"; "0"; "toggle"; "more"] ].
Definition commands_wide : compound_option_t :=
  assign_value wide_rows commands.

(** The option after [set_value] with no tuples, and after a further
    [set_value] with [two_tuples]. *)
Definition commands_cleared : compound_option_t :=
  notify_updated (assign_value [] commands).
Definition commands_set_twice : compound_option_t :=
  notify_updated (assign_value two_rows commands_cleared).

(** The tuples of [two_tuples] without their names, and the option after
    [set_value_simple] with them. *)
Definition two_plain_tuples : simple_list_t [flag_type; string_type] :=
  [ (true, ("run-app", ())); (false, ("toggle", ())) ].
Definition commands_numbered : compound_option_t :=
  notify_updated
    (assign_value [ ["0"; "1"; "run-app"]; ["1"; "0"; "toggle"] ] commands).

End Examples.
Import Examples.


(** ** The mutating operations as one step function *)

(** The four operations that change the value.  [mutate] runs one of them
    and reports, next to the new object, whether the update was applied:
    the two typed setters and the reset return nothing and apply whenever
    they return, the untyped setter reports its own verdict. *)
Inductive mutation : Type :=
  | SetValue (Args : list option_type) (new_value : compound_list_t Args)
  | SetValueSimple (Args : list option_type) (new_value : simple_list_t Args)
  | SetValueUntyped (grid : stored_type_t)
  | ResetToDefault.

Definition mutate (m : mutation) (o : compound_option_t)
    : result (bool * compound_option_t) :=
  match m with
  | SetValue Args new_value => pair true <$> set_value Args new_value o
  | SetValueSimple Args new_value =>
      pair true <$> set_value_simple Args new_value o
  | SetValueUntyped grid => Ok (set_value_untyped grid o)
  | ResetToDefault => Ok (true, reset_to_default o)
  end.

(** Every row of a grid has one identifier cell and [n] column cells. *)
Definition rows_well_formed (n : nat) (grid : stored_type_t) : Prop :=
  ∀ r row, grid !! r = Some row → length row = S n.

(** The invariant of the object; the tracked default is a grid of the same
    shape, since a reset puts it in place of the value. *)
Definition invariant (o : compound_option_t) : Prop :=
  rows_well_formed (length (entries o)) (value o)
  ∧ rows_well_formed (length (entries o)) (default_value o).

(** ** Reading tuples and rows position by position *)

(** Component [k] of a tuple over [Ts], packed with its type:
    [std::get<k>]. *)
Fixpoint tuple_get (Ts : list option_type) (k : nat)
    : typed_tuple Ts → option {T : option_type & carrier T} :=
  match Ts return typed_tuple Ts → option {T : option_type & carrier T} with
  | [] => λ _, None
  | T :: Ts' => λ tup,
      match k with
      | 0 => Some (existT T (get_first tup))
      | S k' => tuple_get Ts' k' (pop_first tup)
      end
  end.

(** The cells [to_string] gives for the components of a tuple, in order. *)
Fixpoint row_of_tuple (Ts : list option_type) : typed_tuple Ts → list string :=
  match Ts return typed_tuple Ts → list string with
  | [] => λ _, []
  | T :: Ts' => λ tup,
      to_string T (get_first tup) :: row_of_tuple Ts' (pop_first tup)
  end.

(** [tup] holds, component by component, what the cells of [row] from
    index [n] on parse to. *)
Fixpoint row_parses (n : nat) (Ts : list option_type) (row : list string)
    : typed_tuple Ts → Prop :=
  match Ts return typed_tuple Ts → Prop with
  | [] => λ _, True
  | T :: Ts' => λ tup,
      (∃ cell, row !! n = Some cell ∧ from_string T cell = Some (get_first tup))
      ∧ row_parses (S n) Ts' row (pop_first tup)
  end.

(** A type whose printer gives back the text its parser accepted. *)
Definition prints_back (T : option_type) : Prop :=
  ∀ (s : string) (v : carrier T), from_string T s = Some v → to_string T v = s.

(** ** Lemmas on the loops *)

Section loops.
Context {A B : Type}.
Implicit Types (body : A → result B) (l : list A) (ys : list B).

Lemma for_each_Ok body l ys :
  for_each body l = Ok ys ↔ Forall2 (λ x y, body x = Ok y) l ys.
Proof.
  revert ys. induction l as [|x l IH]; intros ys; simpl.
  - split.
    + intros [= <-]. constructor.
    + intros H. by inversion H.
  - split.
    + destruct (body x) as [y|] eqn:Hx; simpl; [|done].
      destruct (for_each body l) as [ys'|] eqn:Hl; simpl; [|done].
      intros [= <-]. constructor; [done|]. by apply IH.
    + intros H. inversion H as [|? y ? ys' Hy Hys]; subst.
      rewrite Hy. simpl. apply IH in Hys. by rewrite Hys.
Qed.

Lemma for_each_total body l :
  (∀ x, x ∈ l → ∃ y, body x = Ok y) → ∃ ys, for_each body l = Ok ys.
Proof.
  induction l as [|x l IH]; intros H; simpl; [by eexists|].
  destruct (H x) as [y Hy]; [by left|].
  destruct IH as [ys Hys]; [intros z Hz; apply H; by right|].
  exists (y :: ys). by rewrite Hy, Hys.
Qed.
End loops.

Lemma push_back_column_Ok (column : list string) (value : stored_type_t) :
  length value = length column →
  push_back_column column value
  = Ok (zip_with (λ row cell, row ++ [cell]) value column).
Proof.
  revert value. induction column as [|cell column IH]; intros [|row value];
    simpl; try done.
  intros [= Hlen]. by rewrite IH.
Qed.

Lemma push_recursive_Ok (Ts : list option_type)
    (new_value : list (typed_tuple Ts)) (value : stored_type_t) :
  length value = length new_value →
  push_recursive Ts new_value value
  = Ok (zip_with (λ row tup, row ++ row_of_tuple Ts tup) value new_value).
Proof.
  revert new_value value.
  induction Ts as [|T Ts IH]; intros new_value value Hlen; simpl.
  - f_equal. revert new_value Hlen.
    induction value as [|row value IHv]; intros [|tup new_value]; simpl;
      try done.
    intros [= Hlen]. rewrite app_nil_r. f_equal. by apply IHv.
  - rewrite push_back_column_Ok by (by rewrite length_fmap). simpl.
    rewrite IH.
    + f_equal. revert new_value Hlen.
      induction value as [|row value IHv]; intros [|tup new_value]; simpl;
        try done.
      intros [= Hlen]. rewrite <-app_assoc. simpl. f_equal. by apply IHv.
    + rewrite length_zip_with, !length_fmap, Hlen. apply Nat.min_id.
Qed.

Lemma zip_with_replicate_nil {X} (f : X → list string) (l : list X) :
  zip_with (λ (row : list string) x, row ++ f x) (replicate (length l) []) l
  = f <$> l.
Proof. induction l as [|x l IH]; simpl; [done|]. by rewrite IH. Qed.

(** What [set_value] stores when the arity assertion holds: one row per
    tuple, made of the texts of its components. *)
Lemma set_value_Ok (Args : list option_type) (new_value : compound_list_t Args)
    (o : compound_option_t) :
  length Args = length (entries o) →
  set_value Args new_value o
  = Ok (notify_updated
          (assign_value (row_of_tuple (string_type :: Args) <$> new_value) o)).
Proof.
  intros Harity. unfold set_value. rewrite bool_decide_eq_true_2 by done.
  rewrite push_recursive_Ok by (by rewrite length_replicate).
  by rewrite (zip_with_replicate_nil (row_of_tuple (string_type :: Args))).
Qed.

Lemma value_notify_updated_assign (v : stored_type_t) (o : compound_option_t) :
  value (notify_updated (assign_value v o)) = v.
Proof. reflexivity. Qed.

Lemma set_value_arity_mismatch (Args : list option_type)
    (new_value : compound_list_t Args) (o : compound_option_t) :
  length Args ≠ length (entries o) →
  set_value Args new_value o = Fatal assertion_failed.
Proof.
  intros Harity. unfold set_value. by rewrite bool_decide_eq_false_2.
Qed.

(** A call of [set_value] that returns passed the arity assertion and
    stored the rows of the tuples. *)
Lemma set_value_inv (Args : list option_type) (new_value : compound_list_t Args)
    (o o' : compound_option_t) :
  set_value Args new_value o = Ok o' →
  length Args = length (entries o)
  ∧ o' = notify_updated
           (assign_value (row_of_tuple (string_type :: Args) <$> new_value) o).
Proof.
  destruct (decide (length Args = length (entries o))) as [Harity|Harity].
  - rewrite set_value_Ok by done. intros Heq. split; [done|]. congruence.
  - by rewrite set_value_arity_mismatch.
Qed.

Lemma fmap_Ok_inv {A B} (g : A → B) (m : result A) (y : B) :
  g <$> m = Ok y → ∃ x, m = Ok x ∧ y = g x.
Proof. destruct m as [x|]; [|done]. intros [= <-]. by exists x. Qed.

Lemma length_row_of_tuple (Ts : list option_type) (tup : typed_tuple Ts) :
  length (row_of_tuple Ts tup) = length Ts.
Proof.
  induction Ts as [|T Ts IH]; simpl; [done|]. by rewrite IH.
Qed.

Lemma build_column_Ok (T : option_type) (n : nat) (value : stored_type_t)
    (column : list (carrier T)) :
  build_column T n value = Ok column
  ↔ Forall2 (λ row v, ∃ cell, row !! n = Some cell ∧ from_string T cell = Some v)
      value column.
Proof.
  unfold build_column. rewrite for_each_Ok.
  assert (∀ row (v : carrier T),
    (cell ← vector_at row n; optional_value (from_string T cell)) = Ok v
    ↔ ∃ cell, row !! n = Some cell ∧ from_string T cell = Some v) as Hcell.
  { intros row v. unfold vector_at, optional_value.
    destruct (row !! n) as [cell|]; simpl.
    - destruct (from_string T cell) as [w|] eqn:Hw; simpl.
      + split; [intros [= ->]; eauto|]. intros (? & [= <-] & Hc). congruence.
      + split; [done|]. intros (? & [= <-] & Hc). congruence.
    - split; [done|]. by intros (? & ? & _). }
  split; intros H; (eapply Forall2_impl; [exact H|]); intros row v;
    apply Hcell.
Qed.

(** [build_recursive] returns exactly when every row parses, and then
    returns, row by row, the tuples the rows parse to. *)
Lemma build_recursive_Ok (Ts : list option_type) (n : nat)
    (value : stored_type_t) (res : list (typed_tuple Ts)) :
  build_recursive n Ts value = Ok res ↔ Forall2 (row_parses n Ts) value res.
Proof.
  revert n res. induction Ts as [|T Ts IH]; intros n res; simpl.
  - split.
    + intros [= <-]. induction value; simpl; by constructor.
    + intros H. f_equal. induction H as [|row [] value res _ _ IHF]; simpl;
        [done|]. by f_equal.
  - split.
    + destruct (build_column T n value) as [column|] eqn:Hcol; simpl; [|done].
      destruct (build_recursive (S n) Ts value) as [rest|] eqn:Hrest; simpl;
        [|done].
      intros [= <-]. apply build_column_Ok in Hcol. apply IH in Hrest.
      clear IH. revert rest Hrest.
      induction Hcol as [|row v value column Hv _ IHc]; intros rest Hrest;
        inversion Hrest; subst; simpl; constructor; auto.
    + intros H.
      assert (build_column T n value = Ok (get_first <$> res)) as ->.
      { apply build_column_Ok. clear IH.
        induction H as [|row [v tup] value res [Hv _] _ IHF]; simpl;
          by constructor. }
      assert (build_recursive (S n) Ts value = Ok (pop_first <$> res)) as ->.
      { apply IH. clear IH.
        induction H as [|row [v tup] value res [_ Ht] _ IHF]; simpl;
          by constructor. }
      simpl. f_equal. clear. induction res as [|[v tup] res IHr]; simpl;
        [done|]. by f_equal.
Qed.

(** [build_recursive] returns as soon as every cell it visits exists and
    parses. *)
Lemma build_recursive_total (Ts : list option_type) (n : nat)
    (value : stored_type_t) :
  (∀ row k T, row ∈ value → Ts !! k = Some T →
     ∃ cell, row !! (n + k) = Some cell ∧ is_Some (from_string T cell)) →
  ∃ res, build_recursive n Ts value = Ok res.
Proof.
  revert n. induction Ts as [|T Ts IH]; intros n Hcells; simpl; [by eexists|].
  destruct (for_each_total
    (λ row, cell ← vector_at row n; optional_value (from_string T cell)) value)
    as [column Hcol].
  { intros row Hrow. destruct (Hcells row 0 T Hrow eq_refl) as (cell & Hc & v & Hv).
    rewrite Nat.add_0_r in Hc. exists v. unfold vector_at. rewrite Hc. simpl.
    by rewrite Hv. }
  destruct (IH (S n)) as [rest Hrest].
  { intros row k T' Hrow HT'. destruct (Hcells row (S k) T' Hrow HT')
      as (cell & Hc & Hv). exists cell. split; [|done].
    by rewrite <-Hc, Nat.add_succ_r. }
  unfold build_column. rewrite Hcol, Hrest. simpl. by eexists.
Qed.

(** A tuple a row parses to, read position by position. *)
Lemma row_parses_lookup (Ts : list option_type) (n : nat) (row : list string)
    (tup : typed_tuple Ts) (k : nat) (T : option_type) :
  row_parses n Ts row tup → Ts !! k = Some T →
  ∃ cell v, row !! (n + k) = Some cell ∧ from_string T cell = Some v
            ∧ tuple_get Ts k tup = Some (existT T v).
Proof.
  revert n k tup. induction Ts as [|T' Ts IH]; intros n k tup; simpl; [done|].
  destruct tup as [v tup]. intros [(cell & Hc & Hv) Hrest]. destruct k as [|k].
  - intros [= ->]. exists cell, v. by rewrite Nat.add_0_r.
  - intros HT. destruct (IH (S n) k tup Hrest HT) as (cell' & v' & Hc' & Hv' & Hg).
    exists cell', v'. by rewrite Nat.add_succ_r.
Qed.

(** The row [set_value] writes for a tuple parses back to that tuple when
    the types of its components round-trip. *)
Lemma row_of_tuple_parses (Ts : list option_type) (before : list string)
    (tup : typed_tuple Ts) :
  Forall round_trips Ts →
  row_parses (length before) Ts (before ++ row_of_tuple Ts tup) tup.
Proof.
  revert before tup. induction Ts as [|T Ts IH]; intros before tup Hrt; simpl;
    [done|].
  destruct tup as [v tup]. inversion Hrt as [|? ? HT HTs]; subst. simpl. split.
  - exists (to_string T v). split; [|by apply HT].
    by rewrite lookup_app_r, Nat.sub_diag.
  - specialize (IH (before ++ [to_string T v]) tup HTs).
    by rewrite length_app, Nat.add_1_r, <-app_assoc in IH.
Qed.

Lemma string_type_round_trips : round_trips string_type.
Proof. by intros s. Qed.

(** ** The tuple helpers *)

(** C10.  [pop_first] and [push_first] are mutually inverse on the first
    component: popping what was pushed gives the tuple back, and pushing the
    first component of a non-empty tuple onto the rest of it gives the
    original tuple. *)
Theorem pop_first_push_first_inverse (T1 : Type) (Ts : list Type)
    (t : T1) (tup : tuple Ts) (whole : tuple (T1 :: Ts)) :
  pop_first (push_first t tup) = tup
  ∧ push_first (get_first whole) (pop_first whole) = whole.
Proof.
  split; [reflexivity|]. destruct whole as [t1 ts]. reflexivity.
Qed.

(** ** Column descriptors *)

(** C9.  For a descriptor of declared type [T], [is_parsable raw] is [true]
    exactly when the text parser of [T] yields a value for [raw], and
    [false] exactly when it yields none.  The answer is a plain boolean for
    every input, never an abort, and the call has no access to the
    descriptor beyond reading it: cloning before or after gives the same
    answer and the same prefix and name. *)
Theorem is_parsable_iff_parses (T : option_type) (prefix name raw : string) :
  let e := {| entry_type := T; prefix := prefix; name := name |} in
  (is_parsable e raw = true ↔ ∃ v, from_string T raw = Some v)
  ∧ (is_parsable e raw = false ↔ from_string T raw = None)
  ∧ is_parsable (clone e) raw = is_parsable e raw
  ∧ get_prefix e = prefix ∧ get_name e = name.
Proof.
  unfold is_parsable; simpl. destruct (from_string T raw) as [v|].
  - repeat split; eauto; discriminate.
  - repeat split; try done. by intros [v Hv].
Qed.

(** ** The untyped setter *)

Lemma row_validates_cell (es : list compound_option_entry_t)
    (row : list string) (c : nat) (cell : string) :
  row_validates es row = true → row !! c = Some cell →
  cell_validates es c cell = true.
Proof.
  unfold row_validates. intros [_ Hall]%andb_true_iff Hcell.
  rewrite forallb_forall in Hall. apply (Hall (cell_validates es c cell)).
  apply list_elem_of_In, list_elem_of_lookup. exists c.
  by rewrite list_lookup_imap, Hcell.
Qed.

Lemma row_validates_intro (es : list compound_option_entry_t)
    (row : list string) :
  length row = S (length es) →
  (∀ c cell, row !! c = Some cell → cell_validates es c cell = true) →
  row_validates es row = true.
Proof.
  intros Hlen Hcells. unfold row_validates. apply andb_true_iff. split.
  - by apply bool_decide_eq_true.
  - apply forallb_forall. intros b [c Hc]%list_elem_of_In%list_elem_of_lookup.
    rewrite list_lookup_imap in Hc.
    destruct (row !! c) as [cell|] eqn:Hcell; simpl in Hc; [|done].
    injection Hc as <-. by apply Hcells.
Qed.

(** C1.  When the grid has a cell at a column index [c + 1 >= 1] that the
    corresponding descriptor [entries[c]] rejects, [set_value_untyped]
    reports failure and leaves the object as it was, so [get_value_untyped]
    returns afterwards what it returned before: nothing of the grid is
    applied. *)
Theorem set_value_untyped_all_or_nothing (grid : stored_type_t)
    (o : compound_option_t) (r c : nat) (row : list string) (cell : string)
    (e : compound_option_entry_t) :
  grid !! r = Some row → row !! S c = Some cell → entries o !! c = Some e →
  is_parsable e cell = false →
  (set_value_untyped grid o).1 = false
  ∧ get_value_untyped (set_value_untyped grid o).2 = get_value_untyped o
  ∧ (set_value_untyped grid o).2 = o.
Proof.
  intros Hrow Hcell He Hbad. unfold set_value_untyped.
  destruct (forallb (row_validates (entries o)) grid) eqn:Hall; [|done].
  exfalso. rewrite forallb_forall in Hall.
  assert (row_validates (entries o) row = true) as Hvalid.
  { apply Hall, list_elem_of_In, list_elem_of_lookup. eauto. }
  apply row_validates_cell with (c := S c) (cell := cell) in Hvalid; [|done].
  simpl in Hvalid. rewrite He in Hvalid. congruence.
Qed.

Lemma set_value_untyped_all_or_nothing_witness :
  (set_value_untyped bad_rows commands_loaded).1 = false
  ∧ get_value_untyped (set_value_untyped bad_rows commands_loaded).2
    = get_value_untyped commands_loaded
  ∧ (set_value_untyped bad_rows commands_loaded).2 = commands_loaded.
Proof.
  apply (set_value_untyped_all_or_nothing bad_rows commands_loaded 1 0
           ["b"; "not-a-flag"; "x"] "not-a-flag"
           {| entry_type := flag_type; prefix := "enabled_";
              name := "enabled" |});
    reflexivity.
Defined.

(** C3, as amended.  When every row of the grid [V] is a row of the schema
    (an identifier and one cell per column, [N + 1] cells) and every
    non-identifier cell validates against the descriptor of its column,
    [set_value_untyped V] succeeds and [get_value_untyped] then returns [V]
    itself: same rows, same cells, same text, same order. *)
Theorem set_value_untyped_round_trip (V : stored_type_t)
    (o : compound_option_t) :
  rows_well_formed (length (entries o)) V →
  (∀ r row c cell e,
     V !! r = Some row → row !! S c = Some cell → entries o !! c = Some e →
     is_parsable e cell = true) →
  (set_value_untyped V o).1 = true
  ∧ get_value_untyped (set_value_untyped V o).2 = V.
Proof.
  intros Hshape Hcells. unfold set_value_untyped.
  assert (forallb (row_validates (entries o)) V = true) as ->; [|done].
  apply forallb_forall. intros row [r Hrow]%list_elem_of_In%list_elem_of_lookup.
  apply row_validates_intro; [by eapply Hshape|].
  intros [|c] cell Hcell; simpl; [done|].
  destruct (entries o !! c) as [e|] eqn:He; [by eapply Hcells|].
  apply lookup_ge_None in He. apply lookup_lt_Some in Hcell.
  rewrite (Hshape r row Hrow) in Hcell. lia.
Qed.

Lemma set_value_untyped_round_trip_witness :
  (set_value_untyped two_rows commands).1 = true
  ∧ get_value_untyped (set_value_untyped two_rows commands).2 = two_rows.
Proof.
  apply (set_value_untyped_round_trip two_rows commands).
  - intros [|[|r]] row [= <-]; reflexivity.
  - intros [|[|r]] row [|[|c]] cell e [= <-] [= <-] [= <-]; reflexivity.
Defined.

(** A row that lacks a column is refused although each of its cells
    validates, and the option keeps its value. *)
Lemma short_rows_refused :
  set_value_untyped short_rows commands = (false, commands).
Proof. reflexivity. Qed.

(** C3 as stated fails: that every non-identifier cell of the grid validates
    against the descriptor of its column does not make [set_value_untyped]
    succeed.  The one row of [short_rows] has a valid flag cell and no cell
    for the command column; the setter refuses it, since a stored row has a
    cell for every column. *)
Lemma set_value_untyped_round_trip_needs_full_rows :
  ¬ (∀ (V : stored_type_t) (o : compound_option_t),
       (∀ r row c cell e,
          V !! r = Some row → row !! S c = Some cell →
          entries o !! c = Some e → is_parsable e cell = true) →
       (set_value_untyped V o).1 = true
       ∧ get_value_untyped (set_value_untyped V o).2 = V).
Proof.
  intros Hclaim. destruct (Hclaim short_rows commands) as [Hok _].
  - intros [|r] row [|c] cell e [= <-] [= <-] [= <-]. reflexivity.
  - rewrite short_rows_refused in Hok. discriminate Hok.
Qed.

(** The scenario of the specification, with a flag in place of the
    integer column: two valid rows are stored and read back typed; a grid
    with a cell that is no flag is refused and the two rows stay. *)
Example scenario_load :
  set_value_untyped two_rows commands = (true, commands_loaded)
  ∧ get_value [flag_type; string_type] commands_loaded = Ok two_tuples.
Proof. split; reflexivity. Qed.

Example scenario_refused :
  set_value_untyped bad_rows commands_loaded = (false, commands_loaded)
  ∧ get_value_untyped commands_loaded = two_rows.
Proof. split; reflexivity. Qed.

(** ** The typed getter *)

(** C4.  On an option whose rows have [N + 1] cells, with [N] the schema
    arity and the length of [Args...], and whose cell [k + 1] parses as
    [Args[k]] in every row, [get_value<Args...>] returns one tuple per
    stored row, in row order; the identifier of the tuple is cell 0 of the
    row, and for every column position [k < N] component [k + 1] of the
    tuple is what [from_string<Args[k]>] gives for cell [k + 1]. *)
Theorem get_value_parses_each_cell (Args : list option_type)
    (o : compound_option_t) :
  length Args = length (entries o) →
  rows_well_formed (length (entries o)) (value o) →
  (∀ r row k T cell,
     value o !! r = Some row → Args !! k = Some T → row !! S k = Some cell →
     is_Some (from_string T cell)) →
  ∃ res : compound_list_t Args,
    get_value Args o = Ok res
    ∧ length res = length (value o)
    ∧ ∀ r row tup, value o !! r = Some row → res !! r = Some tup →
        row !! 0 = Some (get_first tup)
        ∧ ∀ k T, Args !! k = Some T →
            ∃ cell v, row !! S k = Some cell ∧ from_string T cell = Some v
                      ∧ tuple_get Args k (pop_first tup) = Some (existT T v).
Proof.
  intros Harity Hshape Hcells. unfold get_value.
  destruct (build_recursive_total (string_type :: Args) 0 (value o))
    as [res Hres].
  { intros row k T [r Hrow]%list_elem_of_lookup HT. simpl.
    destruct (lookup_lt_is_Some_2 row k) as [cell Hcell].
    { rewrite (Hshape r row Hrow), <-Harity.
      apply lookup_lt_Some in HT. simpl in HT. lia. }
    exists cell. split; [done|]. destruct k as [|k]; simpl in HT.
    - injection HT as <-. by eexists.
    - by eapply Hcells. }
  exists res. split; [done|]. apply build_recursive_Ok in Hres.
  split; [symmetry; by eapply Forall2_length|].
  intros r row [name args] Hrow Htup.
  destruct (Forall2_lookup_lr _ _ _ _ _ _ Hres Hrow Htup)
    as [(cell & Hcell & Hname) Hargs].
  simpl in Hname, Hargs. injection Hname as ->. split; [done|].
  intros k T HT.
  by destruct (row_parses_lookup Args 1 row args k T Hargs HT)
    as (cell & v & ? & ? & ?); exists cell, v.
Qed.

Lemma get_value_parses_each_cell_witness :
  ∃ res : compound_list_t [flag_type; string_type],
    get_value [flag_type; string_type] commands_loaded = Ok res
    ∧ length res = length (value commands_loaded)
    ∧ ∀ r row tup, value commands_loaded !! r = Some row →
        res !! r = Some tup →
        row !! 0 = Some (get_first tup)
        ∧ ∀ k T, [flag_type; string_type] !! k = Some T →
            ∃ cell v, row !! S k = Some cell ∧ from_string T cell = Some v
                      ∧ tuple_get [flag_type; string_type] k (pop_first tup)
                        = Some (existT T v).
Proof.
  apply (get_value_parses_each_cell [flag_type; string_type] commands_loaded).
  - reflexivity.
  - intros [|[|r]] row [= <-]; reflexivity.
  - intros [|[|r]] row [|[|k]] T cell [= <-] [= <-] [= <-]; vm_compute; eauto.
Defined.

(** X4.  The typed getter on an option without rows returns no tuples,
    whatever the type list and whatever the schema: no cell is parsed. *)
Lemma get_value_empty (Args : list option_type) (o : compound_option_t) :
  value o = [] → get_value Args o = Ok [].
Proof.
  intros Hempty. unfold get_value. rewrite Hempty. clear.
  generalize 0. induction (string_type :: Args) as [|T Ts IH]; intros n;
    simpl; [done|]. by rewrite IH.
Qed.

(** C5.  The typed getter has no check of the arity: on the option loaded
    with the two command rows (schema arity 2) the call [get_value<flag>]
    with a single declared type completes normally and returns the first
    column of every row, where the claim wants a fatal failure. *)
Theorem get_value_completes_despite_arity_mismatch :
  length [flag_type] ≠ length (entries commands_loaded)
  ∧ get_value [flag_type] commands_loaded
    = Ok [ ("binding1", (true, ())); ("binding2", (false, ())) ].
Proof. split; [discriminate|reflexivity]. Qed.

(** ** The typed setter *)

(** C2, as amended.  When every type of [Args...] round-trips through its
    own text form and the length of [Args...] is the schema arity,
    [set_value<Args...>(T)] returns and [get_value<Args...>()] then returns
    a list equal to [T]: same length, same order, same components. *)
Theorem typed_round_trip (Args : list option_type) (T : compound_list_t Args)
    (o : compound_option_t) :
  Forall round_trips Args → length Args = length (entries o) →
  ∃ o', set_value Args T o = Ok o' ∧ get_value Args o' = Ok T.
Proof.
  intros Hrt Harity. rewrite set_value_Ok by done. eexists. split; [done|].
  unfold get_value. simpl value. apply build_recursive_Ok.
  apply Forall2_fmap_l, Forall_Forall2_diag, Forall_forall. intros tup _.
  apply (row_of_tuple_parses (string_type :: Args) [] tup).
  constructor; [apply string_type_round_trips|done].
Qed.

Lemma flag_type_round_trips : round_trips flag_type.
Proof. by intros []. Qed.

Lemma typed_round_trip_witness :
  ∃ o', set_value [flag_type; string_type] two_tuples commands = Ok o'
        ∧ get_value [flag_type; string_type] o' = Ok two_tuples.
Proof.
  apply (typed_round_trip [flag_type; string_type] two_tuples commands).
  - constructor; [exact flag_type_round_trips|].
    constructor; [exact string_type_round_trips|]. constructor.
  - reflexivity.
Defined.

(** With a column type that reads back less than it wrote, the tuples
    returned differ from the tuples set. *)
Lemma two_word_tuples_read_back :
  set_value [word_type; string_type] two_word_tuples commands
    ≫= get_value [word_type; string_type]
  = Ok [ ("binding1", ("toggle", ("x", ()))) ].
Proof. reflexivity. Qed.

(** C2 as stated fails: it does not hold for every type list of the right
    length.  For [word_type], whose parser keeps the first word only,
    setting [two_word_tuples] and getting them back returns another list. *)
Lemma typed_round_trip_not_for_all_types :
  ¬ (∀ (Args : list option_type) (T : compound_list_t Args)
       (o : compound_option_t),
       length Args = length (entries o) →
       ∃ o', set_value Args T o = Ok o' ∧ get_value Args o' = Ok T).
Proof.
  intros Hclaim.
  destruct (Hclaim [word_type; string_type] two_word_tuples commands eq_refl)
    as (o' & Hset & Hget).
  pose proof two_word_tuples_read_back as Hread.
  rewrite Hset in Hread. simpl in Hread. rewrite Hget in Hread.
  discriminate Hread.
Qed.

(** ** Notifications and the row invariant *)

Lemma set_value_simple_as_set_value (Args : list option_type)
    (new_value : simple_list_t Args) (o : compound_option_t) :
  ∃ named : compound_list_t Args,
    set_value_simple Args new_value o = set_value Args named o.
Proof. by eexists. Qed.

(** C6.  Each of the four mutating operations that applies its update sends
    exactly one change notification; an update that is refused leaves the
    object as it was, notification count included; and a call that aborts
    does so at the arity assertion, ahead of any notification. *)
Theorem one_notification_per_mutation (m : mutation) (o : compound_option_t) :
  match mutate m o with
  | Ok (true, o') => notifications o' = S (notifications o)
  | Ok (false, o') => o' = o
  | Fatal f => f = assertion_failed
  end.
Proof.
  assert (∀ Args (T : compound_list_t Args),
    match pair true <$> set_value Args T o with
    | Ok (true, o') => notifications o' = S (notifications o)
    | Ok (false, o') => o' = o
    | Fatal f => f = assertion_failed
    end) as Hset.
  { intros Args T. destruct (decide (length Args = length (entries o))).
    - by rewrite set_value_Ok.
    - by rewrite set_value_arity_mismatch. }
  destruct m as [Args T|Args L|grid|]; simpl.
  - apply Hset.
  - destruct (set_value_simple_as_set_value Args L o) as [named ->].
    apply Hset.
  - unfold set_value_untyped.
    by destruct (forallb (row_validates (entries o)) grid).
  - done.
Qed.

(** C7.  A freshly constructed option satisfies the row invariant, and each
    of [set_value], [set_value_simple], [set_value_untyped] and
    [reset_to_default] takes an option satisfying it to one satisfying it,
    with the same schema: every stored row keeps exactly [N + 1] cells. *)
Theorem row_length_invariant :
  (∀ name es hint, invariant (make_compound_option name es hint))
  ∧ (∀ m o applied o',
       invariant o → mutate m o = Ok (applied, o') →
       invariant o' ∧ entries o' = entries o).
Proof.
  split; [by split; intros r row|].
  assert (∀ Args (T : compound_list_t Args) o applied o',
    invariant o → pair true <$> set_value Args T o = Ok (applied, o') →
    invariant o' ∧ entries o' = entries o) as Hset.
  { intros Args T o applied o' [_ Hdefault] (x & Hx & Heq)%fmap_Ok_inv.
    apply set_value_inv in Hx as [Harity ->].
    assert (o' = notify_updated
      (assign_value (row_of_tuple (string_type :: Args) <$> T) o)) as ->
      by congruence.
    split; [|done]. split; [|done]. intros r row Hrow.
    rewrite value_notify_updated_assign in Hrow.
    apply list_lookup_fmap_Some in Hrow as (tup & -> & _).
    rewrite (length_row_of_tuple (string_type :: Args)). simpl.
    by rewrite Harity. }
  intros [Args T|Args L|grid|] o applied o' Hinv; simpl.
  - by apply Hset.
  - destruct (set_value_simple_as_set_value Args L o) as [named ->].
    by apply Hset.
  - unfold set_value_untyped.
    destruct (forallb (row_validates (entries o)) grid) eqn:Hall;
      intros [= _ <-]; [|done].
    split; [|done]. split; [|apply Hinv]. intros r row Hrow. simpl in *.
    rewrite forallb_forall in Hall.
    assert (row_validates (entries o) row = true) as Hvalid.
    { apply Hall, list_elem_of_In, list_elem_of_lookup. eauto. }
    unfold row_validates in Hvalid.
    apply andb_true_iff in Hvalid as [Hlen _].
    by apply bool_decide_eq_true in Hlen.
  - intros [= _ <-]. split; [|done]. split; apply Hinv.
Qed.

Lemma row_length_invariant_witness :
  invariant commands_loaded ∧ entries commands_loaded = entries commands.
Proof.
  apply (proj2 row_length_invariant (SetValueUntyped two_rows) commands true).
  - split; intros r row; simpl; discriminate.
  - reflexivity.
Defined.

(** ** The variants on plain tuples *)

Lemma to_int_small (z : Z) : (0 ≤ z ≤ 2147483647)%Z → to_int z = z.
Proof. intros Hz. unfold to_int. rewrite Z.mod_small; lia. Qed.

Lemma name_by_index_all {Ts : list Type} (i bound : Z) (L : list (tuple Ts)) :
  (i + Z.of_nat (length L) ≤ bound)%Z →
  name_by_index i bound L
  = imap (λ j tup, push_first (std_to_string (i + Z.of_nat j)) tup) L.
Proof.
  revert i. induction L as [|tup L IH]; intros i Hbound; simpl; [done|].
  simpl in Hbound. rewrite (proj2 (Z.ltb_lt i bound)) by lia.
  rewrite Z.add_0_r, IH by lia. f_equal. apply imap_ext. intros j tup' _.
  simpl. do 2 f_equal. lia.
Qed.

Lemma name_by_index_none {Ts : list Type} (i bound : Z) (L : list (tuple Ts)) :
  (bound ≤ i)%Z → name_by_index i bound L = [].
Proof.
  intros Hbound. destruct L as [|tup L]; simpl; [done|].
  by rewrite (proj2 (Z.ltb_ge i bound)).
Qed.

(** Up to [INT_MAX] tuples, [set_value_simple] is [set_value] on the list
    in which tuple [i] got the identifier [std::to_string(i)]. *)
Lemma set_value_simple_within_int (Args : list option_type)
    (L : simple_list_t Args) (o : compound_option_t) :
  (Z.of_nat (length L) ≤ 2147483647)%Z →
  set_value_simple Args L o
  = set_value Args
      (imap (λ i tup, push_first (std_to_string (Z.of_nat i)) tup) L) o.
Proof.
  intros Hlen. unfold set_value_simple.
  rewrite to_int_small, name_by_index_all by lia. done.
Qed.

(** [get_value_simple] is [get_value] with the identifier dropped from
    every tuple, order kept. *)
Lemma get_value_simple_drops_identifier (Args : list option_type)
    (o : compound_option_t) :
  get_value_simple Args o
  = match get_value Args o with
    | Ok named => Ok (pop_first <$> named)
    | Fatal f => Fatal f
    end.
Proof. unfold get_value_simple. by destruct (get_value Args o). Qed.

(** From [INT_MAX + 1] tuples on, as long as the size still fits 32 bits,
    the loop bound [(int)value.size()] is negative and the loop body never
    runs: the call stores what [set_value] stores for the empty list. *)
Lemma set_value_simple_past_int (Args : list option_type)
    (L : simple_list_t Args) (o : compound_option_t) :
  (2147483648 ≤ Z.of_nat (length L) < 4294967296)%Z →
  set_value_simple Args L o = set_value Args [] o.
Proof.
  intros Hlen. unfold set_value_simple.
  rewrite name_by_index_none; [done|]. unfold to_int.
  replace (Z.of_nat (length L) + 2147483648)%Z
    with ((Z.of_nat (length L) - 2147483648) + 1 * 4294967296)%Z by lia.
  rewrite Z.mod_add, Z.mod_small by lia. lia.
Qed.

Lemma length_int_overflow_rows :
  Z.of_nat (length int_overflow_rows) = 2147483648%Z.
Proof.
  unfold int_overflow_rows. rewrite length_replicate. by apply Z2Nat.id.
Qed.

(** C8.  The write half fails past the range of [int]: for
    [INT_MAX + 1 = 2147483648] plain tuples [set_value_simple] stores an
    empty grid, while [set_value] on the same tuples with the identifiers
    [0], [1], ... prepended stores one row per tuple. *)
Theorem set_value_simple_drops_rows_past_int :
  value <$> set_value_simple [] int_overflow_rows plain_list = Ok []
  ∧ ∃ o', set_value []
            (imap (λ i tup, push_first (std_to_string (Z.of_nat i)) tup)
                  int_overflow_rows) plain_list = Ok o'
          ∧ Z.of_nat (length (value o')) = 2147483648%Z.
Proof.
  split.
  - rewrite set_value_simple_past_int; [reflexivity|].
    rewrite length_int_overflow_rows. lia.
  - eexists. split; [by apply set_value_Ok|].
    rewrite value_notify_updated_assign, length_fmap, length_imap.
    apply length_int_overflow_rows.
Qed.

(** ** When the typed getter returns and how it fails *)

Lemma for_each_Fatal {A B} (body : A → result B) (l : list A) (f : failure) :
  for_each body l = Fatal f → ∃ x, x ∈ l ∧ body x = Fatal f.
Proof.
  induction l as [|x l IH]; simpl; [done|].
  destruct (body x) as [y|g] eqn:Hx; simpl.
  - destruct (for_each body l) as [ys|g]; simpl; [done|]. intros [= ->].
    destruct IH as (x' & Hin & Hx'); [done|]. exists x'. split; [by right|done].
  - intros [= ->]. exists x. split; [by left|done].
Qed.

(** A failure of [build_recursive] is the failure of one cell access. *)
Lemma build_recursive_Fatal (Ts : list option_type) (n : nat)
    (value : stored_type_t) (f : failure) :
  build_recursive n Ts value = Fatal f →
  ∃ k T row, Ts !! k = Some T ∧ row ∈ value
    ∧ (cell ← vector_at row (n + k); optional_value (from_string T cell))
      = Fatal f.
Proof.
  revert n. induction Ts as [|T Ts IH]; intros n; simpl; [done|].
  destruct (build_column T n value) as [column|g] eqn:Hcol; simpl.
  - destruct (build_recursive (S n) Ts value) as [rest|g] eqn:Hrest; simpl;
      [done|]. intros [= ->].
    destruct (IH (S n) Hrest) as (k & T' & row & HT' & Hrow & Hcell).
    exists (S k), T', row. by rewrite Nat.add_succ_r.
  - intros [= ->]. apply for_each_Fatal in Hcol as (row & Hrow & Hcell).
    exists 0, T, row. by rewrite Nat.add_0_r.
Qed.

(** The cells behind a normal return of [get_value]. *)
Lemma get_value_Ok_cells (Args : list option_type) (o : compound_option_t)
    (res : compound_list_t Args) :
  get_value Args o = Ok res →
  ∀ r row, value o !! r = Some row →
    is_Some (row !! 0)
    ∧ ∀ k T, Args !! k = Some T →
        ∃ cell, row !! S k = Some cell ∧ is_Some (from_string T cell).
Proof.
  unfold get_value. intros Hres%build_recursive_Ok r row Hrow.
  destruct (Forall2_lookup_l _ _ _ _ _ Hres Hrow) as ([name args] & _ & Hp).
  destruct Hp as [(cell & Hcell & _) Hargs]. split; [by eexists|].
  intros k T HT.
  destruct (row_parses_lookup Args 1 row args k T Hargs HT)
    as (cell' & v & Hcell' & Hv & _).
  exists cell'. split; [done|]. by eexists.
Qed.

(** The cell access behind a failure of [get_value]: either the row has
    no cell at the index, or the cell is there and does not parse. *)
Lemma get_value_Fatal_cell (Args : list option_type) (o : compound_option_t)
    (f : failure) :
  get_value Args o = Fatal f →
  ∃ r row k T,
    value o !! r = Some row ∧ (string_type :: Args) !! k = Some T
    ∧ ((f = out_of_range ∧ row !! k = None)
       ∨ (f = bad_optional_access
          ∧ ∃ cell, row !! k = Some cell ∧ from_string T cell = None)).
Proof.
  unfold get_value. intros (k & T & row & HT & Hrow & Hcell)%build_recursive_Fatal.
  apply list_elem_of_lookup in Hrow as [r Hrow]. exists r, row, k, T.
  split; [done|]. split; [done|]. simpl in Hcell. unfold vector_at in Hcell.
  destruct (row !! k) as [cell|]; simpl in Hcell.
  - destruct (from_string T cell) as [v|] eqn:Hv; simpl in Hcell; [done|].
    injection Hcell as <-. right. split; [done|]. by exists cell.
  - injection Hcell as <-. by left.
Qed.

(** X1.  [get_value<Args...>] returns normally exactly when every stored row
    has a cell 0 and, for every position [k] of [Args...], a cell [k + 1]
    that parses as [Args[k]]; the schema plays no part.  When it returns,
    the result has one tuple per stored row. *)
Theorem get_value_Ok_iff (Args : list option_type) (o : compound_option_t) :
  ((∃ res, get_value Args o = Ok res)
   ↔ ∀ r row, value o !! r = Some row →
       is_Some (row !! 0)
       ∧ ∀ k T, Args !! k = Some T →
           ∃ cell, row !! S k = Some cell ∧ is_Some (from_string T cell))
  ∧ ∀ res, get_value Args o = Ok res → length res = length (value o).
Proof.
  split; [split|].
  - intros [res Hres]. by eapply get_value_Ok_cells.
  - intros Hcells. apply build_recursive_total.
    intros row [|k] T [r Hrow]%list_elem_of_lookup HT; simpl in *.
    + injection HT as <-. destruct (Hcells r row Hrow) as [[cell Hcell] _].
      exists cell. split; [done|]. by eexists.
    + destruct (Hcells r row Hrow) as [_ Hargs]. by apply Hargs.
  - unfold get_value. intros res Hres%build_recursive_Ok. symmetry.
    by eapply Forall2_length.
Qed.

(** X2.  A failure of [get_value<Args...>] has one of two causes, each
    with a stored cell to show for it: undefined behaviour of [value[i][n]]
    when some row has no cell at an index up to the length of [Args...], or
    [bad_optional_access] when a cell [k + 1] that is there does not parse
    as [Args[k]].  The identifier cell never fails to parse, and the getter
    never fails an assertion. *)
Theorem get_value_failure_cause (Args : list option_type)
    (o : compound_option_t) (f : failure) :
  get_value Args o = Fatal f →
  (f = out_of_range
   ∧ ∃ (r : nat) (row : list string) (k : nat),
       value o !! r = Some row ∧ (k ≤ length Args)%nat ∧ row !! k = None)
  ∨ (f = bad_optional_access
     ∧ ∃ r row k T cell,
         value o !! r = Some row ∧ Args !! k = Some T
         ∧ row !! S k = Some cell ∧ from_string T cell = None).
Proof.
  intros (r & row & k & T & Hrow & HT & Hcause)%get_value_Fatal_cell.
  destruct Hcause as [[-> Hnone]|[-> (cell & Hcell & Hv)]].
  - left. split; [done|]. exists r, row, k. split; [done|]. split; [|done].
    apply lookup_lt_Some in HT. simpl in HT. lia.
  - right. split; [done|]. destruct k as [|k]; simpl in HT.
    + injection HT as <-. done.
    + by exists r, row, k, T, cell.
Qed.

Lemma get_value_failure_cause_witness :
  (bad_optional_access = out_of_range
   ∧ ∃ (r : nat) (row : list string) (k : nat),
       value commands_loaded !! r = Some row
       ∧ (k ≤ length [string_type; flag_type])%nat ∧ row !! k = None)
  ∨ (bad_optional_access = bad_optional_access
     ∧ ∃ r row k T cell,
         value commands_loaded !! r = Some row
         ∧ [string_type; flag_type] !! k = Some T
         ∧ row !! S k = Some cell ∧ from_string T cell = None).
Proof.
  apply (get_value_failure_cause [string_type; flag_type] commands_loaded).
  reflexivity.
Defined.

(** X3.  On an option whose rows have [N + 1] cells, called with as many
    types as the schema has entries, [get_value] never indexes past the end
    of a row: it fails exactly when some cell [k + 1] does not parse as
    [Args[k]], and then with [bad_optional_access]. *)
Theorem get_value_fails_iff_unparsable_cell (Args : list option_type)
    (o : compound_option_t) :
  length Args = length (entries o) →
  rows_well_formed (length (entries o)) (value o) →
  (get_value Args o = Fatal bad_optional_access
   ↔ ∃ r row k T cell,
       value o !! r = Some row ∧ Args !! k = Some T
       ∧ row !! S k = Some cell ∧ from_string T cell = None)
  ∧ ∀ f, get_value Args o = Fatal f → f = bad_optional_access.
Proof.
  intros Harity Hshape.
  assert (∀ f, get_value Args o = Fatal f →
    f = bad_optional_access
    ∧ ∃ r row k T cell,
        value o !! r = Some row ∧ Args !! k = Some T
        ∧ row !! S k = Some cell ∧ from_string T cell = None) as Honly.
  { intros f (r & row & k & T & Hrow & HT & Hcause)%get_value_Fatal_cell.
    destruct Hcause as [[_ Hnone]|[-> (cell & Hcell & Hv)]].
    - apply lookup_ge_None in Hnone. rewrite (Hshape r row Hrow) in Hnone.
      apply lookup_lt_Some in HT. simpl in HT. lia.
    - split; [done|]. destruct k as [|k]; simpl in HT.
      + injection HT as <-. done.
      + by exists r, row, k, T, cell. }
  split; [split|intros f Hf; by apply Honly].
  - by intros [_ ?]%Honly.
  - intros (r & row & k & T & cell & Hrow & HT & Hcell & Hnone).
    destruct (get_value Args o) as [res|f] eqn:Hget.
    + destruct (get_value_Ok_cells Args o res Hget r row Hrow) as [_ Hargs].
      destruct (Hargs k T HT) as (cell' & Hcell' & v & Hv). congruence.
    + by destruct (Honly f eq_refl) as [-> _].
Qed.

Lemma get_value_fails_iff_unparsable_cell_witness :
  (get_value [string_type; flag_type] commands_loaded = Fatal bad_optional_access
   ↔ ∃ r row k T cell,
       value commands_loaded !! r = Some row
       ∧ [string_type; flag_type] !! k = Some T
       ∧ row !! S k = Some cell ∧ from_string T cell = None)
  ∧ ∀ f, get_value [string_type; flag_type] commands_loaded = Fatal f →
         f = bad_optional_access.
Proof.
  apply (get_value_fails_iff_unparsable_cell [string_type; flag_type]
           commands_loaded).
  - reflexivity.
  - intros [|[|r]] row [= <-]; reflexivity.
Defined.

Lemma get_value_empty_witness :
  get_value [flag_type; flag_type; flag_type] commands = Ok [].
Proof.
  apply (get_value_empty [flag_type; flag_type; flag_type] commands).
  reflexivity.
Defined.

Lemma for_each_Forall2 {A A' B} (body : A → result B) (body' : A' → result B)
    (l : list A) (l' : list A') :
  Forall2 (λ x x', body x = body' x') l l' →
  for_each body l = for_each body' l'.
Proof.
  induction 1 as [|x x' l l' Hx _ IH]; simpl; [done|]. by rewrite Hx, IH.
Qed.

(** [build_recursive<n>] on two grids with the same rows as far as the
    columns [n], ..., [n + |Ts| - 1] go. *)
Lemma build_recursive_columns (Ts : list option_type) (n : nat)
    (value value' : stored_type_t) :
  Forall2 (λ row row' : list string,
             ∀ k, k < length Ts → row !! (n + k) = row' !! (n + k))
          value value' →
  build_recursive n Ts value = build_recursive n Ts value'.
Proof.
  revert n. induction Ts as [|T Ts IH]; intros n Hcols; simpl.
  - f_equal. induction Hcols; simpl; by f_equal.
  - assert (build_column T n value = build_column T n value') as ->.
    { apply for_each_Forall2. eapply Forall2_impl; [exact Hcols|].
      intros row row' Hk. unfold vector_at. simpl in Hk.
      specialize (Hk 0 ltac:(lia)). rewrite Nat.add_0_r in Hk. by rewrite Hk. }
    rewrite (IH (S n)); [done|]. eapply Forall2_impl; [exact Hcols|].
    intros row row' Hk k Hlt. simpl in Hk. specialize (Hk (S k) ltac:(lia)).
    by rewrite Nat.add_succ_r in Hk.
Qed.

(** X5.  [get_value<Args...>] reads the cells [0], ..., [|Args|] of every
    row and nothing else: two options whose rows agree on these leading
    cells give the same result, whatever follows in the rows and whatever
    their schemas are. *)
Theorem get_value_reads_leading_cells (Args : list option_type)
    (o o' : compound_option_t) :
  Forall2 (λ row row' : list string,
             take (S (length Args)) row = take (S (length Args)) row')
          (value o) (value o') →
  get_value Args o = get_value Args o'.
Proof.
  intros Hrows. unfold get_value. apply build_recursive_columns.
  eapply Forall2_impl; [exact Hrows|]. intros row row' Htake k Hk.
  simpl in *.
  rewrite <-(lookup_take_lt row (S (length Args)) k),
          <-(lookup_take_lt row' (S (length Args)) k) by lia.
  by rewrite Htake.
Qed.

Lemma get_value_reads_leading_cells_witness :
  get_value [flag_type; string_type] commands_wide
  = get_value [flag_type; string_type] commands_loaded.
Proof.
  apply (get_value_reads_leading_cells [flag_type; string_type]
           commands_wide commands_loaded).
  repeat constructor.
Defined.

(** ** What the typed setter stores *)

Lemma row_of_tuple_lookup (Ts : list option_type) (tup : typed_tuple Ts)
    (k : nat) (T : option_type) (v : carrier T) :
  tuple_get Ts k tup = Some (existT T v) →
  row_of_tuple Ts tup !! k = Some (to_string T v).
Proof.
  revert k tup. induction Ts as [|T' Ts IH]; intros k tup; simpl; [done|].
  destruct tup as [w tup]. destruct k as [|k]; simpl; [|by apply IH].
  intros Heq.
  apply (f_equal (λ p : option {T : option_type & carrier T},
                    match p with
                    | Some p => to_string (projT1 p) (projT2 p)
                    | None => ""
                    end)) in Heq.
  simpl in Heq. by rewrite Heq.
Qed.

Lemma row_of_tuple_lookup_inv (Ts : list option_type) (tup : typed_tuple Ts)
    (k : nat) (cell : string) :
  row_of_tuple Ts tup !! k = Some cell →
  ∃ T v, Ts !! k = Some T ∧ cell = to_string T v.
Proof.
  revert k tup. induction Ts as [|T' Ts IH]; intros k tup; simpl; [done|].
  destruct tup as [w tup]. destruct k as [|k]; simpl; [|by apply IH].
  intros [= <-]. by exists T', w.
Qed.

(** X6.  A call [set_value<Args...>(T)] that passes the arity assertion
    stores one row per tuple, in order; row [r] has [|Args| + 1] cells, the
    first one the name of tuple [r] as it is, and cell [k + 1] the text
    [to_string] gives for component [k + 1] of the tuple. *)
Theorem set_value_stores_each_component (Args : list option_type)
    (T : compound_list_t Args) (o : compound_option_t) :
  length Args = length (entries o) →
  ∃ o', set_value Args T o = Ok o'
    ∧ length (value o') = length T
    ∧ ∀ r tup, T !! r = Some tup →
        ∃ row, value o' !! r = Some row
          ∧ length row = S (length Args)
          ∧ row !! 0 = Some (get_first tup)
          ∧ ∀ k A v, tuple_get Args k (pop_first tup) = Some (existT A v) →
              row !! S k = Some (to_string A v).
Proof.
  intros Harity. rewrite set_value_Ok by done. eexists. split; [done|].
  rewrite value_notify_updated_assign. split; [by rewrite length_fmap|].
  intros r tup Htup. exists (row_of_tuple (string_type :: Args) tup).
  split; [apply list_lookup_fmap_Some; by exists tup|].
  split; [by rewrite (length_row_of_tuple (string_type :: Args))|].
  destruct tup as [name args]. split; [done|]. intros k A v Hget.
  by apply row_of_tuple_lookup.
Qed.

Lemma set_value_stores_each_component_witness :
  ∃ o', set_value [flag_type; string_type] two_tuples commands = Ok o'
    ∧ length (value o') = length two_tuples
    ∧ ∀ r tup, two_tuples !! r = Some tup →
        ∃ row, value o' !! r = Some row
          ∧ length row = S (length [flag_type; string_type])
          ∧ row !! 0 = Some (get_first tup)
          ∧ ∀ k A v,
              tuple_get [flag_type; string_type] k (pop_first tup)
              = Some (existT A v) →
              row !! S k = Some (to_string A v).
Proof.
  apply (set_value_stores_each_component [flag_type; string_type] two_tuples
           commands).
  reflexivity.
Defined.

(** X7.  [set_value] replaces the value wholesale: after two calls in a row
    the stored grid is the one the second call alone would have stored,
    each of the two calls has sent its notification, and the schema and the
    type hint are the ones from before. *)
Theorem set_value_replaces_value (Args1 Args2 : list option_type)
    (T1 : compound_list_t Args1) (T2 : compound_list_t Args2)
    (o o1 o2 : compound_option_t) :
  set_value Args1 T1 o = Ok o1 → set_value Args2 T2 o1 = Ok o2 →
  (∃ o2', set_value Args2 T2 o = Ok o2' ∧ value o2 = value o2')
  ∧ notifications o2 = S (S (notifications o))
  ∧ entries o2 = entries o
  ∧ get_type_hint o2 = get_type_hint o.
Proof.
  intros [Harity1 ->]%set_value_inv [Harity2 ->]%set_value_inv.
  split; [|done]. eexists. split; [by apply set_value_Ok|done].
Qed.

Lemma set_value_replaces_value_witness :
  (∃ o2', set_value [flag_type; string_type] two_tuples commands = Ok o2'
          ∧ value commands_set_twice = value o2')
  ∧ notifications commands_set_twice = S (S (notifications commands))
  ∧ entries commands_set_twice = entries commands
  ∧ get_type_hint commands_set_twice = get_type_hint commands.
Proof.
  apply (set_value_replaces_value [flag_type; string_type]
           [flag_type; string_type] [] two_tuples commands commands_cleared
           commands_set_twice); reflexivity.
Defined.

(** X12.  When the entries of the schema were instantiated with the types
    of [Args...], in order, and these types round-trip, every cell a
    returning [set_value<Args...>] stores is accepted by [is_parsable] of
    the entry of its column. *)
Theorem set_value_cells_parsable (Args : list option_type)
    (T : compound_list_t Args) (o o' : compound_option_t) :
  Forall round_trips Args → entry_type <$> entries o = Args →
  set_value Args T o = Ok o' →
  ∀ r row c cell e,
    value o' !! r = Some row → row !! S c = Some cell →
    entries o' !! c = Some e → is_parsable e cell = true.
Proof.
  intros Hrt Htypes [_ ->]%set_value_inv r row c cell e.
  rewrite value_notify_updated_assign.
  intros ([name args] & -> & _)%list_lookup_fmap_Some. simpl.
  intros (A & v & HA & ->)%row_of_tuple_lookup_inv He.
  assert (A = entry_type e) as ->.
  { rewrite <-Htypes, list_lookup_fmap, He in HA. by injection HA. }
  unfold is_parsable. rewrite Forall_lookup in Hrt. by rewrite (Hrt c _ HA).
Qed.

Lemma set_value_cells_parsable_witness :
  is_parsable
    {| entry_type := flag_type; prefix := "enabled_"; name := "enabled" |} "0"
  = true.
Proof.
  apply (set_value_cells_parsable [flag_type; string_type] two_tuples commands
           commands_loaded
           ltac:(constructor; [exact flag_type_round_trips|];
                 constructor; [exact string_type_round_trips|]; constructor)
           eq_refl eq_refl 1 ["binding2"; "0"; "toggle"] 0 "0");
    reflexivity.
Defined.

(** ** The plain-tuple variants, for lists of any length *)

(** The loop of [set_value_simple] in closed form: it names the first
    [bound - i] tuples, if any, by [i], [i + 1], ... *)
Lemma name_by_index_take {Ts : list Type} (i bound : Z) (L : list (tuple Ts)) :
  name_by_index i bound L
  = imap (λ j tup, push_first (std_to_string (i + Z.of_nat j)) tup)
         (take (Z.to_nat (bound - i)) L).
Proof.
  revert i. induction L as [|tup L IH]; intros i; simpl.
  - by rewrite take_nil.
  - destruct (Z.ltb_spec i bound) as [Hlt|Hge].
    + replace (Z.to_nat (bound - i)) with (S (Z.to_nat (bound - (i + 1))))
        by lia.
      simpl. rewrite Z.add_0_r, IH. f_equal. apply imap_ext. intros j tup' _.
      simpl. do 2 f_equal. lia.
    + by replace (Z.to_nat (bound - i)) with 0 by lia.
Qed.

Lemma to_int_le (z : Z) : (0 ≤ z)%Z → (to_int z ≤ z)%Z.
Proof.
  intros Hz. unfold to_int.
  pose proof (Z.mod_le (z + 2147483648) 4294967296). lia.
Qed.

Lemma set_value_simple_prefix (Args : list option_type)
    (L : simple_list_t Args) (o : compound_option_t) :
  set_value_simple Args L o
  = set_value Args
      (imap (λ i tup, push_first (std_to_string (Z.of_nat i)) tup)
            (take (Z.to_nat (to_int (Z.of_nat (length L)))) L)) o.
Proof. unfold set_value_simple. by rewrite name_by_index_take, Z.sub_0_r. Qed.

(** X10.  Whatever the length of the list, [set_value_simple] is
    [set_value] on a prefix of it, tuple [i] named [std::to_string(i)]: the
    prefix has as many tuples as the loop bound [(int)value.size()] says,
    none when the bound is negative, and never more than the list has. *)
Theorem set_value_simple_stores_prefix (Args : list option_type)
    (L : simple_list_t Args) (o : compound_option_t) :
  set_value_simple Args L o
  = set_value Args
      (imap (λ i tup, push_first (std_to_string (Z.of_nat i)) tup)
            (take (Z.to_nat (to_int (Z.of_nat (length L)))) L)) o
  ∧ (Z.to_nat (to_int (Z.of_nat (length L))) ≤ length L)%nat.
Proof.
  split; [apply set_value_simple_prefix|].
  pose proof (to_int_le (Z.of_nat (length L))). lia.
Qed.

(** X9.  After [set_value_simple] every stored row is named by its own
    index, written in decimal, and therefore no two stored rows share an
    identifier. *)
Theorem set_value_simple_identifiers (Args : list option_type)
    (L : simple_list_t Args) (o o' : compound_option_t) :
  set_value_simple Args L o = Ok o' →
  (∀ r row, value o' !! r = Some row →
     row !! 0 = Some (std_to_string (Z.of_nat r)))
  ∧ (∀ r r' row row' id,
       value o' !! r = Some row → value o' !! r' = Some row' →
       row !! 0 = Some id → row' !! 0 = Some id → r = r').
Proof.
  rewrite (set_value_simple_prefix Args L o).
  intros [_ ->]%set_value_inv. rewrite value_notify_updated_assign.
  assert (∀ r row,
    (row_of_tuple (string_type :: Args) <$>
       imap (λ i tup, push_first (std_to_string (Z.of_nat i)) tup)
            (take (Z.to_nat (to_int (Z.of_nat (length L)))) L)) !! r = Some row →
    row !! 0 = Some (std_to_string (Z.of_nat r))) as Hname.
  { intros r row (named & -> & Hnamed)%list_lookup_fmap_Some.
    apply list_lookup_imap_Some in Hnamed as (tup & _ & ->). done. }
  split; [done|]. intros r r' row row' id Hrow Hrow' Hid Hid'.
  rewrite (Hname r row Hrow) in Hid. rewrite (Hname r' row' Hrow') in Hid'.
  assert (std_to_string (Z.of_nat r) = std_to_string (Z.of_nat r')) as Heq
    by congruence.
  unfold std_to_string in Heq. apply (inj pretty) in Heq. lia.
Qed.

Lemma set_value_simple_identifiers_witness :
  (∀ r row, value commands_numbered !! r = Some row →
     row !! 0 = Some (std_to_string (Z.of_nat r)))
  ∧ (∀ r r' row row' id,
       value commands_numbered !! r = Some row →
       value commands_numbered !! r' = Some row' →
       row !! 0 = Some id → row' !! 0 = Some id → r = r').
Proof.
  apply (set_value_simple_identifiers [flag_type; string_type]
           two_plain_tuples commands commands_numbered).
  reflexivity.
Defined.

(** The typed getter on the rows written for tuples whose types round-trip
    returns the tuples. *)
Lemma get_value_of_written_rows (Args : list option_type)
    (T : compound_list_t Args) (o : compound_option_t) :
  Forall round_trips Args →
  get_value Args
    (notify_updated
       (assign_value (row_of_tuple (string_type :: Args) <$> T) o))
  = Ok T.
Proof.
  intros Hrt. unfold get_value. rewrite value_notify_updated_assign.
  apply build_recursive_Ok.
  apply Forall2_fmap_l, Forall_Forall2_diag, Forall_forall. intros tup _.
  apply (row_of_tuple_parses (string_type :: Args) [] tup).
  constructor; [apply string_type_round_trips|done].
Qed.

Lemma pop_first_imap_push_first {T1 : Type} {Ts : list Type}
    (f : nat → T1) (L : list (tuple Ts)) :
  pop_first <$> imap (λ i tup, push_first (f i) tup) L = L.
Proof.
  revert f. induction L as [|tup L IH]; intros f; simpl; [done|].
  f_equal. apply (IH (f ∘ S)).
Qed.

(** X8.  With types that round-trip and the arity of the schema,
    [set_value_simple<Args...>(L)] returns and [get_value_simple<Args...>]
    then returns the tuples that were stored, without their synthesised
    names: a prefix of [L] in general, and [L] itself when [L] has at most
    [INT_MAX] tuples. *)
Theorem simple_round_trip (Args : list option_type) (L : simple_list_t Args)
    (o : compound_option_t) :
  Forall round_trips Args → length Args = length (entries o) →
  ∃ o', set_value_simple Args L o = Ok o'
    ∧ get_value_simple Args o'
      = Ok (take (Z.to_nat (to_int (Z.of_nat (length L)))) L)
    ∧ ((Z.of_nat (length L) ≤ 2147483647)%Z → get_value_simple Args o' = Ok L).
Proof.
  intros Hrt Harity.
  rewrite (set_value_simple_prefix Args L o).
  rewrite set_value_Ok by done. eexists. split; [done|].
  assert (∀ named : compound_list_t Args,
    get_value_simple Args
      (notify_updated
         (assign_value (row_of_tuple (string_type :: Args) <$> named) o))
    = Ok (pop_first <$> named)) as Hget.
  { intros named. unfold get_value_simple.
    by rewrite get_value_of_written_rows. }
  rewrite Hget.
  rewrite (pop_first_imap_push_first (λ i, std_to_string (Z.of_nat i))).
  split; [done|]. intros Hlen. by rewrite to_int_small, Nat2Z.id, take_ge by lia.
Qed.

Lemma simple_round_trip_witness :
  ∃ o', set_value_simple [flag_type; string_type] two_plain_tuples commands
        = Ok o'
    ∧ get_value_simple [flag_type; string_type] o'
      = Ok (take (Z.to_nat (to_int (Z.of_nat (length two_plain_tuples))))
                 two_plain_tuples)
    ∧ ((Z.of_nat (length two_plain_tuples) ≤ 2147483647)%Z →
       get_value_simple [flag_type; string_type] o' = Ok two_plain_tuples).
Proof.
  apply (simple_round_trip [flag_type; string_type] two_plain_tuples commands).
  - constructor; [exact flag_type_round_trips|].
    constructor; [exact string_type_round_trips|]. constructor.
  - reflexivity.
Defined.

(** ** Writing back what was read *)

(** A row that parses to a tuple is the row written for that tuple, when
    the printers give back what the parsers accepted. *)
Lemma row_parses_prints_back (Ts : list option_type) (n : nat)
    (row : list string) (tup : typed_tuple Ts) :
  Forall prints_back Ts → row_parses n Ts row tup →
  length row = n + length Ts → drop n row = row_of_tuple Ts tup.
Proof.
  revert n tup. induction Ts as [|T Ts IH]; intros n tup Hpb; simpl.
  - intros _ Hlen. apply drop_ge. lia.
  - destruct tup as [v tup]. inversion Hpb as [|? ? HT HTs]; subst. simpl.
    intros [(cell & Hcell & Hv) Hrest] Hlen.
    rewrite (drop_S row cell n Hcell). f_equal; [symmetry; by apply HT|].
    apply IH; [done..|lia].
Qed.

Lemma string_type_prints_back : prints_back string_type.
Proof. intros s v. simpl. congruence. Qed.

Lemma flag_type_prints_back : prints_back flag_type.
Proof.
  intros s v. simpl. destruct (String.eqb s "1") eqn:H1.
  - apply String.eqb_eq in H1 as ->. by intros [= <-].
  - destruct (String.eqb s "0") eqn:H0; [|done].
    apply String.eqb_eq in H0 as ->. by intros [= <-].
Qed.

(** X11.  Reading and writing back changes nothing when the printers give
    back the text the parsers accepted: on an option whose rows have
    [N + 1] cells, [set_value<Args...>] on the tuples [get_value<Args...>]
    returned stores the very grid that was there. *)
Theorem set_value_after_get_value (Args : list option_type)
    (T : compound_list_t Args) (o : compound_option_t) :
  Forall prints_back Args → length Args = length (entries o) →
  rows_well_formed (length (entries o)) (value o) →
  get_value Args o = Ok T →
  ∃ o', set_value Args T o = Ok o' ∧ value o' = value o.
Proof.
  intros Hpb Harity Hshape Hget. rewrite set_value_Ok by done.
  eexists. split; [done|]. rewrite value_notify_updated_assign.
  unfold get_value in Hget. apply build_recursive_Ok in Hget.
  symmetry. apply list_eq_Forall2, Forall2_fmap_r.
  apply Forall2_same_length_lookup. split; [by eapply Forall2_length|].
  intros r row tup Hrow Htup.
  change (drop 0 row = row_of_tuple (string_type :: Args) tup).
  apply row_parses_prints_back.
  - constructor; [apply string_type_prints_back|done].
  - by eapply Forall2_lookup_lr.
  - rewrite (Hshape r row Hrow). simpl. by rewrite Harity.
Qed.

Lemma set_value_after_get_value_witness :
  ∃ o', set_value [flag_type; string_type] two_tuples commands_loaded = Ok o'
        ∧ value o' = value commands_loaded.
Proof.
  apply (set_value_after_get_value [flag_type; string_type] two_tuples
           commands_loaded).
  - constructor; [exact flag_type_prints_back|].
    constructor; [exact string_type_prints_back|]. constructor.
  - reflexivity.
  - intros [|[|r]] row [= <-]; reflexivity.
  - reflexivity.
Defined.
